(** * The amortisation engine of [loan.py]

    [loan.py] derives one of principal, annual rate, tenure and periodic
    payment from the other three and lays out the repayment schedule.

    The embedding is shallow and follows the source line by line.  Its
    numbers are the real numbers: every [+], [-], [*], [/], [**] and
    [math.log] of the source is taken exactly, so the statements below are
    statements about the formulas the program evaluates.  The rounding and
    the overflow of binary64 are outside this model.  What Python raises
    because of the _value_ of an operand is inside it: a division by zero,
    a logarithm of a non-positive number, zero raised to a negative power. *)

From Stdlib Require Import Reals Ranalysis5 Lra Lia ZArith String List Psatz Sorted.
Import ListNotations.
Open Scope R_scope.

(** The source names the annual rate [R]; the type of reals is called
    [real] here so that the functions keep their parameter names. *)
Abbreviation real := Rdefinitions.R (only parsing).

(** ** Exceptions and results *)

Inductive exn : Type :=
| ZeroDivisionError
| ValueError (msg : string)
| RuntimeError (msg : string)
| ComplexValue.
(* [RuntimeError] is what a root finder raises when it does not converge.
   [ComplexValue] is not a Python exception: a negative base raised to a
   fractional power is a Python complex number, where this embedding over
   the reals stops. *)

Inductive result (A : Type) : Type :=
| Ok (a : A)
| Raise (e : exn).
Arguments Ok {A} a.
Arguments Raise {A} e.

Definition bind {A B : Type} (m : result A) (k : A -> result B) : result B :=
  match m with
  | Ok a => k a
  | Raise e => Raise e
  end.

Notation "x <- m ;; k" := (bind m (fun x => k))
  (at level 61, m at next level, right associativity).

(** [try: body except (classes): raise handler]. *)
Definition try_except {A : Type} (body : result A) (catches : exn -> bool)
    (handler : exn) : result A :=
  match body with
  | Ok a => Ok a
  | Raise e => if catches e then Raise handler else Raise e
  end.

Definition is_ValueError (e : exn) : bool :=
  match e with ValueError _ => true | _ => false end.

Definition is_ValueError_or_ZeroDivisionError (e : exn) : bool :=
  match e with ValueError _ | ZeroDivisionError => true | _ => false end.

(** ** The Python operations the source uses *)

Module Py.

(** [a / b] on floats. *)
Definition div (a b : real) : result real :=
  if Req_dec_T b 0 then Raise ZeroDivisionError else Ok (a / b).

(** [x ** y] on floats, with the case analysis of CPython's [float_pow]. *)
Definition pow (x y : real) : result real :=
  if Req_dec_T y 0 then Ok 1
  else if Req_dec_T x 0 then
    if Rlt_dec y 0 then Raise ZeroDivisionError else Ok 0
  else if Rlt_dec x 0 then
    if Req_dec_T y (IZR (Int_part y)) then Ok (powerRZ x (Int_part y))
    else Raise ComplexValue
  else Ok (Rpower x y).

(** [math.log(x)]. *)
Definition log (x : real) : result real :=
  if Rle_dec x 0 then Raise (ValueError "math domain error") else Ok (ln x).

(** [max(a, b)]: the first argument unless the second is greater. *)
Definition max (a b : real) : real :=
  if Rlt_dec a b then b else a.

(** [int(x)]: truncation towards zero. *)
Definition int (x : real) : Z :=
  if Rle_dec 0 x then Int_part x else (- Int_part (- x))%Z.

(** The integer nearest to [y], a tie going to the even neighbour. *)
Definition round_half_even (y : real) : Z :=
  let k := Int_part y in
  let f := y - IZR k in
  if Rlt_dec f (1 / 2) then k
  else if Rlt_dec (1 / 2) f then (k + 1)%Z
  else if Z.even k then k else (k + 1)%Z.

(** [round(x, ndigits)]. *)
Definition round (x : real) (ndigits : nat) : real :=
  IZR (round_half_even (x * 10 ^ ndigits)) / 10 ^ ndigits.

(** [range(lo, hi)]. *)
Definition range (lo hi : Z) : list Z :=
  map (fun k => (lo + Z.of_nat k)%Z) (seq 0 (Z.to_nat (hi - lo))).

End Py.

(** ** The solvers

    In [R / 12 / 100] the divisors are non-zero literals, so these two
    divisions cannot raise and are written with the division of the reals. *)

Definition calculate_emi (P R N : real) : result real :=
  let r := R / 12 / 100 in
  if Req_dec_T r 0 then Py.div P N
  else
    a <- Py.pow (1 + r) N ;;
    b <- Py.pow (1 + r) N ;;
    Py.div (P * r * a) (b - 1).

Definition calculate_principal (E R N : real) : result real :=
  let r := R / 12 / 100 in
  if Req_dec_T r 0 then Ok (E * N)
  else
    a <- Py.pow (1 + r) N ;;
    b <- Py.pow (1 + r) N ;;
    Py.div (E * (a - 1)) (r * b).

Definition calculate_tenure (P R E : real) : result real :=
  let r := R / 12 / 100 in
  if Req_dec_T r 0 then Py.div P E
  else
    try_except
      (q <- Py.div E (E - P * r) ;;
       a <- Py.log q ;;
       b <- Py.log (1 + r) ;;
       Py.div a b)
      is_ValueError_or_ZeroDivisionError
      (ValueError "Unable to calculate tenure. Check your values.").

(** The closure [func] of [calculate_rate]. *)
Definition func (P N E : real) (r : real) : result real :=
  let r_monthly := r / 12 / 100 in
  a <- Py.pow (1 + r_monthly) N ;;
  b <- Py.pow (1 + r_monthly) N ;;
  q <- Py.div (P * r_monthly * a) (b - 1) ;;
  Ok (q - E).

(** [scipy.optimize.brentq] is a library routine, not code of this
    repository: [calculate_rate] takes it as a parameter. *)
Definition root_finder : Type :=
  (real -> result real) -> real -> real -> result real.

Definition calculate_rate (brentq : root_finder) (P N E : real) : result real :=
  min_emi <- Py.div P N ;;
  if Rlt_dec E min_emi then Raise (ValueError "EMI is too low to cover the loan.")
  else
    try_except
      (R_solution <- brentq (func P N E) 0.01 50 ;;
       Ok R_solution)
      is_ValueError
      (ValueError "Could not determine interest rate with given values.").

(** ** The schedule *)

Record row : Type := mkRow {
  Month : Z;
  EMI : real;
  Principal : real;
  Interest : real;
  Balance : real
}.

(** The body of [for i in range(1, N + 1)], with [balance] as the loop state. *)
Fixpoint schedule_loop (emi r : real) (months : list Z) (balance : real)
    : list row :=
  match months with
  | [] => []
  | i :: months' =>
      let interest := balance * r in
      let principal_component := emi - interest in
      let balance := balance - principal_component in
      let balance := Py.max balance 0 in
      mkRow i (Py.round emi 2) (Py.round principal_component 2)
            (Py.round interest 2) (Py.round balance 2)
      :: schedule_loop emi r months' balance
  end.

Definition generate_schedule (P R N : real) : result (list row) :=
  let N := Py.int N in
  let r := R / 12 / 100 in
  emi <- calculate_emi P R (IZR N) ;;
  Ok (schedule_loop emi r (Py.range 1 (N + 1)) P).

(** ** Notions the statements use *)

(** The value, one period before the first payment, of [n] unit payments
    when a period multiplies a balance by [q]:
    [1 / q + 1 / q ^ 2 + ... + 1 / q ^ n]. *)
Fixpoint annuity (q : real) (n : nat) : real :=
  match n with
  | O => 0
  | S m => (1 + annuity q m) / q
  end.

(** The payment as a function of the annual rate [r], for the positive-rate
    formula that [calculate_emi] and [func] share. *)
Definition payment_curve (P N : real) (r : real) : real :=
  P * (r / 12 / 100) * Rpower (1 + r / 12 / 100) N
  / (Rpower (1 + r / 12 / 100) N - 1).

(** The defaults of [scipy.optimize.brentq]. *)
Definition xtol : real := 2e-12.
Definition rtol : real := 8.881784197001252e-16.

(** [f] returns a number at every point of [[a, b]]. *)
Definition defined_on (f : real -> result real) (a b : real) : Prop :=
  forall x : real, a <= x <= b -> exists y : real, f x = Ok y.

(** What the proofs take from [scipy.optimize.brentq], as its documentation
    and its loop state it, for a run that ends within [maxiter] steps.
    - When [f a] and [f b] are non-zero and of one sign it raises
      [ValueError].
    - Otherwise it returns a point [x] of [[a, b]] at which [f] is zero or
      changes sign before a second point [c] of the bracket, less than
      [xtol + rtol * |x|] away. *)
Definition brentq_contract (brentq : root_finder) : Prop :=
  forall (f : real -> result real) (a b ya yb : real),
    a < b -> defined_on f a b -> f a = Ok ya -> f b = Ok yb ->
    (0 < ya * yb ->
     brentq f a b = Raise (ValueError "f(a) and f(b) must have different signs")) /\
    (ya * yb <= 0 ->
     exists x c y yc : real,
       brentq f a b = Ok x /\ a <= x <= b /\ a <= c <= b /\
       f x = Ok y /\ f c = Ok yc /\ y * yc <= 0 /\
       Rabs (x - c) <= xtol + rtol * Rabs x).

(** A root finder that meets the contract: plain bisection, run for enough
    steps to shrink the bracket below [xtol]. *)
Fixpoint bisect (k : nat) (f : real -> result real) (lo hi flo : real)
    : result real :=
  match k with
  | O => Ok lo
  | S k' =>
      let mid := (lo + hi) / 2 in
      fmid <- f mid ;;
      if Rle_dec (flo * fmid) 0 then bisect k' f lo mid flo
      else bisect k' f mid hi fmid
  end.

Definition bisection : root_finder :=
  fun f a b =>
    ya <- f a ;;
    yb <- f b ;;
    if Rlt_dec 0 (ya * yb)
    then Raise (ValueError "f(a) and f(b) must have different signs")
    else bisect (Z.to_nat (up ((b - a) / xtol))) f a b ya.

(** ** The page

    The block under [if st.button("Calculate")].  What the page shows is
    kept as a list of events, in the order of the calls; a message carries
    the value it prints, not the formatted text. *)

Inductive quantity : Type :=
| the_EMI
| the_Principal
| the_Tenure
| the_Rate.

Inductive event : Type :=
| st_success (which : quantity) (value : real)
| st_error_blank
| st_error (e : exn)
| st_dataframe (schedule : list row).
(* [st_error_blank] is the message "Please leave exactly one field blank.",
   [st_error e] the message of the handler, [st_dataframe] the heading, the
   table and the download button that follow [generate_schedule]. *)

Definition is_None (x : option real) : bool :=
  match x with
  | None => true
  | Some _ => false
  end.

(** [xs.count(None)]. *)
Definition count_None (xs : list (option real)) : nat :=
  length (filter is_None xs).

(** [float(text) if text else None]; the conversion [float] of a text to a
    number is a parameter. *)
Definition text_field (float : string -> result real) (text : string)
    : result (option real) :=
  if String.eqb text "" then Ok None
  else x <- float text ;; Ok (Some x).

(** The [if]/[elif] chain: the blank quantity is calculated and announced;
    the result holds the message and the three arguments of
    [generate_schedule].  A tenure is [int(round(...))] of the solver's
    answer. *)
Definition solve_blank (brentq : root_finder) (P R N E : option real)
    : option (result (event * (real * real * real))) :=
  match E, P, N, R with
  | None, Some P, Some N, Some R =>
      Some (E <- calculate_emi P R N ;;
            Ok (st_success the_EMI E, (P, R, N)))
  | Some E, None, Some N, Some R =>
      Some (P <- calculate_principal E R N ;;
            Ok (st_success the_Principal P, (P, R, N)))
  | Some E, Some P, None, Some R =>
      Some (n <- calculate_tenure P R E ;;
            let N := IZR (Py.round_half_even n) in
            Ok (st_success the_Tenure N, (P, R, N)))
  | Some E, Some P, Some N, None =>
      Some (R <- calculate_rate brentq P N E ;;
            Ok (st_success the_Rate R, (P, R, N)))
  | _, _, _, _ => None
  end.

(** The body of the [try] once the four fields are read.  [solve_blank]
    answers [None] only when the number of blanks is not one, which the
    test on [missing] has excluded. *)
Definition calculate_fields (brentq : root_finder) (P R N E : option real)
    : list event :=
  let missing := count_None [P; R; N; E] in
  if negb (Nat.eqb missing 1) then [st_error_blank]
  else
    match solve_blank brentq P R N E with
    | None => []
    | Some (Raise e) => [st_error e]
    | Some (Ok (message, (P, R, N))) =>
        message ::
        match generate_schedule P R N with
        | Ok schedule_df => [st_dataframe schedule_df]
        | Raise e => [st_error e]
        end
    end.

Definition calculate_button (float : string -> result real)
    (brentq : root_finder) (principal interest_rate tenure emi : string)
    : list event :=
  match
    P <- text_field float principal ;;
    R <- text_field float interest_rate ;;
    N <- text_field float tenure ;;
    E <- text_field float emi ;;
    Ok (P, R, N, E)
  with
  | Raise e => [st_error e]
  | Ok (P, R, N, E) => calculate_fields brentq P R N E
  end.

(** ** Proof automation *)

(** Splits on the test of the first conditional of the goal and closes the
    branches that the hypotheses exclude. *)
Ltac split_test :=
  match goal with
  | |- context [if ?d then _ else _] =>
      destruct d; try contradiction; try lra
  end.

(** * Properties *)

(** ** The Python operations *)

Lemma div_ok (a b : real) : b <> 0 -> Py.div a b = Ok (a / b).
Proof. intros Hb. unfold Py.div. split_test. reflexivity. Qed.

Lemma div_zero (a : real) : Py.div a 0 = Raise ZeroDivisionError.
Proof. unfold Py.div. split_test. reflexivity. Qed.

Lemma pow_pos_base (x y : real) : 0 < x -> y <> 0 -> Py.pow x y = Ok (Rpower x y).
Proof. intros Hx Hy. unfold Py.pow. do 3 split_test. reflexivity. Qed.

Lemma pow_one_period (x : real) : 0 < x -> Py.pow x 1 = Ok x.
Proof.
  intros Hx. rewrite pow_pos_base by lra. now rewrite Rpower_1.
Qed.

Lemma log_ok (x : real) : 0 < x -> Py.log x = Ok (ln x).
Proof. intros Hx. unfold Py.log. split_test. reflexivity. Qed.

Lemma log_domain (x : real) :
  x <= 0 -> Py.log x = Raise (ValueError "math domain error").
Proof. intros Hx. unfold Py.log. split_test. reflexivity. Qed.

Lemma max_Rmax (a b : real) : Py.max a b = Rmax a b.
Proof.
  unfold Py.max, Rmax.
  destruct (Rlt_dec a b), (Rle_dec a b); lra.
Qed.

(** ** Zero rate *)

(** The zero-rate branch of [calculate_emi] is the division [P / N] of
    Python, which raises for [N = 0]. *)
Lemma calculate_emi_rate_0 (P N : real) : calculate_emi P 0 N = Py.div P N.
Proof.
  unfold calculate_emi.
  destruct (Req_dec_T (0 / 12 / 100) 0) as [_ | Hr]; [reflexivity | lra].
Qed.

(** C9.  At a zero annual rate the payment is the plain quotient [P / N]:
    the zero-rate branch answers before any power is taken. *)
Theorem calculate_emi_zero_rate (P N : real) :
  0 < P -> 0 < N -> calculate_emi P 0 N = Ok (P / N).
Proof.
  intros _ HN. rewrite calculate_emi_rate_0. apply div_ok. lra.
Qed.

Lemma calculate_emi_zero_rate_witness :
  calculate_emi 1200 0 12 = Ok (1200 / 12).
Proof.
  apply calculate_emi_zero_rate; lra.
Defined.

(** C10.  With a zero rate and a zero payment [calculate_tenure] raises the
    bare [ZeroDivisionError] of [P / E]: the division sits before the [try],
    so the error is not replaced by the [ValueError] of the handler, which
    is what a zero divisor inside the [try] (a payment equal to the first
    period's interest) is turned into. *)
Theorem calculate_tenure_zero_rate_zero_payment :
  (forall P : real, calculate_tenure P 0 0 = Raise ZeroDivisionError) /\
  (forall P R : real, R <> 0 ->
     calculate_tenure P R (P * (R / 12 / 100)) =
     Raise (ValueError "Unable to calculate tenure. Check your values.")).
Proof.
  split.
  - intros P. unfold calculate_tenure.
    destruct (Req_dec_T (0 / 12 / 100) 0) as [_ | Hr]; [| lra].
    apply div_zero.
  - intros P R HR. unfold calculate_tenure.
    destruct (Req_dec_T (R / 12 / 100) 0) as [Hr | _]; [lra |].
    replace (P * (R / 12 / 100) - P * (R / 12 / 100)) with 0 by lra.
    rewrite div_zero. reflexivity.
Qed.

(** ** Tenure *)

Lemma ln_pos (x : real) : 1 < x -> 0 < ln x.
Proof.
  intros Hx. rewrite <- ln_1. apply ln_increasing; lra.
Qed.

Lemma quotient_neg_neg (a b : real) : a < 0 -> b < 0 -> 0 < a / b.
Proof.
  intros Ha Hb. replace (a / b) with ((- a) / (- b)) by (field; lra).
  apply Rdiv_lt_0_compat; lra.
Qed.

Lemma quotient_nonneg_neg (a b : real) : 0 <= a -> b < 0 -> a / b <= 0.
Proof.
  intros Ha Hb. replace (a / b) with (- (a / (- b))) by (field; lra).
  assert (0 <= a / (- b)); [| lra].
  apply Rmult_le_pos; [lra |]. left. apply Rinv_0_lt_compat. lra.
Qed.

(** The formula of the positive-rate branch, when both logarithms are
    defined and the second is not zero. *)
Lemma calculate_tenure_formula (P R E : real) :
  0 < R / 12 / 100 -> E - P * (R / 12 / 100) <> 0 ->
  0 < E / (E - P * (R / 12 / 100)) ->
  calculate_tenure P R E =
  Ok (ln (E / (E - P * (R / 12 / 100))) / ln (1 + R / 12 / 100)).
Proof.
  intros Hr Hd Hq. unfold calculate_tenure.
  destruct (Req_dec_T (R / 12 / 100) 0) as [Hr0 | _]; [lra |].
  rewrite (div_ok _ _ Hd). cbn [bind].
  rewrite (log_ok _ Hq). cbn [bind].
  rewrite log_ok by lra. cbn [bind].
  rewrite div_ok; [reflexivity |].
  apply Rgt_not_eq, ln_pos. lra.
Qed.




(** ** The annuity sum *)

Section Annuity.

Variable q : real.
Hypothesis q_pos : 0 < q.

Lemma annuity_nonneg (n : nat) : 0 <= annuity q n.
Proof.
  induction n as [| n IH]; cbn [annuity]; [lra |].
  apply Rmult_le_pos; [lra |]. left. now apply Rinv_0_lt_compat.
Qed.

Lemma annuity_pos (n : nat) : (1 <= n)%nat -> 0 < annuity q n.
Proof.
  destruct n as [| n]; [lia |]. intros _. cbn [annuity].
  pose proof (annuity_nonneg n). apply Rdiv_lt_0_compat; lra.
Qed.

(** One period on, the value of the remaining payments: the recurrence the
    loop of the schedule follows. *)
Lemma annuity_step (n : nat) : q * annuity q (S n) - 1 = annuity q n.
Proof.
  cbn [annuity]. field. lra.
Qed.

Lemma annuity_closed_form (n : nat) :
  q <> 1 -> annuity q n = (q ^ n - 1) / ((q - 1) * q ^ n).
Proof.
  intros Hq1. assert (Hqn : forall m, q ^ m <> 0) by (intros m; apply pow_nonzero; lra).
  induction n as [| n IH]; cbn [annuity].
  - cbn [pow]. field. lra.
  - rewrite IH. cbn [pow]. specialize (Hqn n). field. repeat split; lra.
Qed.

End Annuity.

Lemma annuity_one (n : nat) : annuity 1 n = INR n.
Proof.
  induction n as [| n IH]; [reflexivity |].
  cbn [annuity]. rewrite IH, S_INR. field.
Qed.

Lemma annuity_decreasing_le (q1 q2 : real) (n : nat) :
  0 < q1 -> q1 <= q2 -> annuity q2 n <= annuity q1 n.
Proof.
  intros Hq1 Hq. induction n as [| n IH]; cbn [annuity]; [lra |].
  pose proof (annuity_nonneg q2 ltac:(lra) n) as H2.
  apply Rle_trans with ((1 + annuity q1 n) / q2).
  - apply Rmult_le_compat_r; [left; apply Rinv_0_lt_compat; lra | lra].
  - apply Rmult_le_compat_l; [lra |]. apply Rinv_le_contravar; lra.
Qed.

Lemma annuity_decreasing (q1 q2 : real) (n : nat) :
  0 < q1 -> q1 < q2 -> (1 <= n)%nat -> annuity q2 n < annuity q1 n.
Proof.
  intros Hq1 Hq Hn. destruct n as [| n]; [lia |]. cbn [annuity].
  pose proof (annuity_decreasing_le q1 q2 n Hq1 ltac:(lra)) as Hle.
  pose proof (annuity_nonneg q2 ltac:(lra) n) as H2.
  apply Rle_lt_trans with ((1 + annuity q1 n) / q2).
  - apply Rmult_le_compat_r; [left; apply Rinv_0_lt_compat; lra | lra].
  - apply Rmult_lt_compat_l; [lra |]. apply Rinv_lt_contravar; [| lra].
    apply Rmult_lt_0_compat; lra.
Qed.

(** ** Payment and principal over a whole number of periods *)

Lemma pow_whole (x : real) (n : nat) :
  0 < x -> (1 <= n)%nat -> Py.pow x (INR n) = Ok (x ^ n).
Proof.
  intros Hx Hn. rewrite pow_pos_base; [| assumption |].
  - now rewrite Rpower_pow.
  - apply not_0_INR. lia.
Qed.

(** The payment is the principal divided by the annuity sum, in both
    branches of [calculate_emi]. *)
Lemma calculate_emi_annuity (P R : real) (n : nat) :
  0 <= R -> (1 <= n)%nat ->
  calculate_emi P R (INR n) = Ok (P / annuity (1 + R / 12 / 100) n).
Proof.
  intros HR Hn. unfold calculate_emi.
  destruct (Req_dec_T (R / 12 / 100) 0) as [Hr | Hr].
  - rewrite Hr, Rplus_0_r, annuity_one. apply div_ok, not_0_INR. lia.
  - assert (Hq : 1 < 1 + R / 12 / 100) by lra.
    assert (Hqn : 1 < (1 + R / 12 / 100) ^ n) by (apply Rlt_pow_R1; [lra | lia]).
    rewrite pow_whole by (lra || lia). cbn [bind].
    rewrite div_ok by lra. f_equal.
    rewrite annuity_closed_form by lra.
    field. repeat split; lra.
Qed.

Lemma calculate_principal_annuity (E R : real) (n : nat) :
  0 <= R -> (1 <= n)%nat ->
  calculate_principal E R (INR n) = Ok (E * annuity (1 + R / 12 / 100) n).
Proof.
  intros HR Hn. unfold calculate_principal.
  destruct (Req_dec_T (R / 12 / 100) 0) as [Hr | Hr].
  - rewrite Hr, Rplus_0_r, annuity_one. reflexivity.
  - assert (Hq : 1 < 1 + R / 12 / 100) by lra.
    assert (Hqn : 1 < (1 + R / 12 / 100) ^ n) by (apply Rlt_pow_R1; [lra | lia]).
    rewrite pow_whole by (lra || lia). cbn [bind].
    rewrite div_ok by (apply Rmult_integral_contrapositive_currified; lra). f_equal.
    rewrite annuity_closed_form by lra.
    field. repeat split; lra.
Qed.

Lemma whole_periods (n : Z) : (0 < n)%Z -> IZR n = INR (Z.to_nat n) /\ (1 <= Z.to_nat n)%nat.
Proof.
  intros Hn. split; [| lia].
  rewrite INR_IZR_INZ, Z2Nat.id by lia. reflexivity.
Qed.





(** ** Truncation, rounding and ranges *)

Lemma Rabs_le_bounds (x y : real) : Rabs x <= y -> - y <= x <= y.
Proof.
  unfold Rabs. destruct (Rcase_abs x); lra.
Qed.

Lemma Int_part_bounds (y : real) : IZR (Int_part y) <= y < IZR (Int_part y) + 1.
Proof. pose proof (base_Int_part y). lra. Qed.

Lemma Int_part_IZR (n : Z) : Int_part (IZR n) = n.
Proof. symmetry. apply Int_part_spec. lra. Qed.

Lemma Int_part_mono (x y : real) : x <= y -> (Int_part x <= Int_part y)%Z.
Proof.
  intros Hxy. pose proof (Int_part_bounds x). pose proof (Int_part_bounds y).
  assert (H1 : IZR (Int_part x) < IZR (Int_part y + 1)) by (rewrite plus_IZR; lra).
  apply lt_IZR in H1. lia.
Qed.

Lemma int_whole (n : Z) : (0 <= n)%Z -> Py.int (IZR n) = n.
Proof.
  intros Hn. unfold Py.int. apply IZR_le in Hn.
  destruct (Rle_dec 0 (IZR n)); [apply Int_part_IZR | lra].
Qed.

Lemma int_ge_1 (N : real) : 1 <= N -> (1 <= Py.int N)%Z.
Proof.
  intros HN. unfold Py.int. destruct (Rle_dec 0 N); [| lra].
  rewrite <- (Int_part_IZR 1). now apply Int_part_mono.
Qed.

Lemma round_half_even_near (y : real) :
  Rabs (IZR (Py.round_half_even y) - y) <= 1 / 2.
Proof.
  unfold Py.round_half_even. pose proof (Int_part_bounds y).
  destruct (Rlt_dec (y - IZR (Int_part y)) (1 / 2)).
  - apply Rabs_le. lra.
  - destruct (Rlt_dec (1 / 2) (y - IZR (Int_part y))).
    + rewrite plus_IZR. apply Rabs_le. lra.
    + destruct (Z.even (Int_part y)); [| rewrite plus_IZR]; apply Rabs_le; lra.
Qed.

Lemma round_half_even_mono (x y : real) :
  x <= y -> (Py.round_half_even x <= Py.round_half_even y)%Z.
Proof.
  intros Hxy. pose proof (Int_part_mono x y Hxy) as Hk.
  pose proof (Int_part_bounds x) as Hx. pose proof (Int_part_bounds y) as Hy.
  assert (Hlo : forall z, (Int_part z <= Py.round_half_even z <= Int_part z + 1)%Z).
  { intros z. unfold Py.round_half_even.
    destruct (Rlt_dec (z - IZR (Int_part z)) (1 / 2)); [lia |].
    destruct (Rlt_dec (1 / 2) (z - IZR (Int_part z))); [lia |].
    destruct (Z.even (Int_part z)); lia. }
  destruct (Z.eq_dec (Int_part x) (Int_part y)) as [He | Hne].
  - unfold Py.round_half_even. rewrite He in *.
    destruct (Rlt_dec (x - IZR (Int_part y)) (1 / 2)),
             (Rlt_dec (y - IZR (Int_part y)) (1 / 2)); try lia; try lra.
    + destruct (Rlt_dec (1 / 2) (y - IZR (Int_part y))); [lia |].
      destruct (Z.even (Int_part y)); lia.
    + destruct (Rlt_dec (1 / 2) (x - IZR (Int_part y))),
               (Rlt_dec (1 / 2) (y - IZR (Int_part y))); try lia; try lra.
      destruct (Z.even (Int_part y)); lia.
  - pose proof (Hlo x). pose proof (Hlo y). lia.
Qed.

Lemma round_half_even_0 : Py.round_half_even 0 = 0%Z.
Proof.
  unfold Py.round_half_even.
  replace (Int_part 0) with 0%Z by (apply Int_part_spec; lra).
  destruct (Rlt_dec (0 - 0) (1 / 2)); [reflexivity | lra].
Qed.

Lemma round_0 (d : nat) : Py.round 0 d = 0.
Proof.
  unfold Py.round. rewrite Rmult_0_l, round_half_even_0.
  unfold Rdiv. apply Rmult_0_l.
Qed.

Lemma round_mono (x y : real) (d : nat) : x <= y -> Py.round x d <= Py.round y d.
Proof.
  intros Hxy. unfold Py.round.
  assert (Hd : 0 < 10 ^ d) by (apply pow_lt; lra).
  apply Rmult_le_compat_r; [left; now apply Rinv_0_lt_compat |].
  apply IZR_le, round_half_even_mono. apply Rmult_le_compat_r; lra.
Qed.

Lemma round_nonneg (x : real) (d : nat) : 0 <= x -> 0 <= Py.round x d.
Proof.
  intros Hx. rewrite <- (round_0 d). now apply round_mono.
Qed.

(** Rounding the two parts of a sum and the sum itself to cents leaves them
    at most one cent apart. *)
Lemma round_sum_cent (a b : real) :
  Rabs (Py.round a 2 + Py.round b 2 - Py.round (a + b) 2) <= 0.01.
Proof.
  unfold Py.round.
  pose proof (round_half_even_near (a * 10 ^ 2)) as Ha.
  pose proof (round_half_even_near (b * 10 ^ 2)) as Hb.
  pose proof (round_half_even_near ((a + b) * 10 ^ 2)) as Hc.
  set (ka := Py.round_half_even (a * 10 ^ 2)) in *.
  set (kb := Py.round_half_even (b * 10 ^ 2)) in *.
  set (kc := Py.round_half_even ((a + b) * 10 ^ 2)) in *.
  assert (Hz : (-1 <= ka + kb - kc <= 1)%Z).
  { apply Rabs_le_bounds in Ha, Hb, Hc.
    assert (H1 : IZR (ka + kb - kc) < IZR 2)
      by (rewrite minus_IZR, plus_IZR; lra).
    assert (H2 : IZR (-2) < IZR (ka + kb - kc))
      by (rewrite minus_IZR, plus_IZR; lra).
    apply lt_IZR in H1, H2. lia. }
  replace (IZR ka / 10 ^ 2 + IZR kb / 10 ^ 2 - IZR kc / 10 ^ 2)
    with (IZR (ka + kb - kc) / 100)
    by (rewrite minus_IZR, plus_IZR; field).
  destruct Hz as [Hz1 Hz2]. apply IZR_le in Hz1, Hz2.
  apply Rabs_le. lra.
Qed.

Lemma range_from_1 (n : Z) :
  Py.range 1 (n + 1) = map Z.of_nat (seq 1 (Z.to_nat n)).
Proof.
  unfold Py.range. replace (n + 1 - 1)%Z with n by lia.
  rewrite <- seq_shift, map_map. apply map_ext. intros k. lia.
Qed.

Lemma range_length (n : Z) : length (Py.range 1 (n + 1)) = Z.to_nat n.
Proof.
  rewrite range_from_1, length_map, length_seq. reflexivity.
Qed.

(** ** The schedule *)

Lemma schedule_loop_months (emi r : real) (months : list Z) (balance : real) :
  map Month (schedule_loop emi r months balance) = months.
Proof.
  revert balance. induction months as [| i months IH]; intros balance; cbn.
  - reflexivity.
  - now rewrite IH.
Qed.

Lemma schedule_loop_length (emi r : real) (months : list Z) (balance : real) :
  length (schedule_loop emi r months balance) = length months.
Proof.
  rewrite <- (schedule_loop_months emi r months balance) at 2.
  now rewrite length_map.
Qed.

(** For a non-negative rate and at least one period [generate_schedule]
    returns: the payment is defined, and the loop cannot raise. *)
Lemma generate_schedule_returns (P R N : real) :
  0 <= R -> 1 <= N ->
  generate_schedule P R N =
  Ok (schedule_loop (P / annuity (1 + R / 12 / 100) (Z.to_nat (Py.int N)))
        (R / 12 / 100) (Py.range 1 (Py.int N + 1)) P).
Proof.
  intros HR HN. unfold generate_schedule.
  pose proof (int_ge_1 N HN) as Hn.
  destruct (whole_periods (Py.int N) ltac:(lia)) as [HI Hk].
  rewrite HI, calculate_emi_annuity by assumption. reflexivity.
Qed.



Lemma schedule_loop_conservation (emi r : real) (months : list Z) (balance : real) :
  Forall (fun row => Rabs (Principal row + Interest row - EMI row) <= 0.01)
         (schedule_loop emi r months balance).
Proof.
  revert balance. induction months as [| i months IH]; intros balance; cbn.
  - constructor.
  - constructor; [| apply IH]. cbn.
    replace emi with (emi - balance * r + balance * r) at 2 by ring.
    apply round_sum_cent.
Qed.



(** The interest on the principal never exceeds the payment. *)
Lemma annuity_rate_le_1 (r : real) (n : nat) :
  0 <= r -> annuity (1 + r) n * r <= 1.
Proof.
  intros Hr. induction n as [| n IH]; cbn [annuity]; [lra |].
  replace ((1 + annuity (1 + r) n) / (1 + r) * r)
    with ((r + annuity (1 + r) n * r) / (1 + r)) by (field; lra).
  apply Rmult_le_reg_r with (1 + r); [lra |].
  replace ((r + annuity (1 + r) n * r) / (1 + r) * (1 + r))
    with (r + annuity (1 + r) n * r) by (field; lra).
  lra.
Qed.

Lemma first_interest_le_payment (P r : real) (n : nat) :
  0 <= P -> 0 <= r -> (1 <= n)%nat -> P * r <= P / annuity (1 + r) n.
Proof.
  intros HP Hr Hn.
  assert (HA : 0 < annuity (1 + r) n) by (apply annuity_pos; [lra | assumption]).
  pose proof (annuity_rate_le_1 r n Hr) as H1.
  apply Rmult_le_reg_r with (annuity (1 + r) n); [assumption |].
  replace (P / annuity (1 + r) n * annuity (1 + r) n) with P by (field; lra).
  replace (P * r * annuity (1 + r) n) with (P * (annuity (1 + r) n * r)) by ring.
  rewrite <- (Rmult_1_r P) at 2. apply Rmult_le_compat_l; assumption.
Qed.

(** One turn of the loop: while the interest on the balance is covered by
    the payment, the balance carried forward is non-negative and not above
    the balance before. *)
Lemma balance_step (emi r balance : real) :
  0 <= r -> 0 <= balance -> balance * r <= emi ->
  let balance' := Py.max (balance - (emi - balance * r)) 0 in
  0 <= balance' <= balance /\ balance' * r <= emi.
Proof.
  intros Hr Hb Hi balance'. subst balance'. rewrite max_Rmax.
  assert (H : 0 <= Rmax (balance - (emi - balance * r)) 0 <= balance).
  { unfold Rmax. destruct (Rle_dec (balance - (emi - balance * r)) 0); lra. }
  split; [exact H |].
  apply Rle_trans with (balance * r); [| assumption].
  apply Rmult_le_compat_r; lra.
Qed.

Lemma schedule_loop_balances (emi r : real) (months : list Z) (balance : real) :
  0 <= r -> 0 <= balance -> balance * r <= emi ->
  let balances := map Balance (schedule_loop emi r months balance) in
  Forall (fun b => 0 <= b <= Py.round balance 2) balances /\
  StronglySorted Rge balances.
Proof.
  intros Hr. revert balance.
  induction months as [| i months IH]; intros balance Hb Hi; cbn.
  - split; constructor.
  - destruct (balance_step emi r balance Hr Hb Hi) as [[Hb0 Hb1] Hi'].
    set (balance' := Py.max (balance - (emi - balance * r)) 0) in *.
    destruct (IH balance' Hb0 Hi') as [Hall Hsorted].
    pose proof (round_mono balance' balance 2 Hb1) as Hround.
    split.
    + constructor.
      * split; [now apply round_nonneg | assumption].
      * eapply Forall_impl; [| exact Hall]. cbn. intros b Hbb. lra.
    + constructor; [assumption |].
      eapply Forall_impl; [| exact Hall]. cbn. intros b Hbb. lra.
Qed.



(** The balance carried forward when [m] periods remain is the value of
    the [m] payments still to come; after the last period nothing remains. *)
Lemma schedule_loop_last (emi r : real) (m : nat) :
  0 <= emi -> 0 <= r ->
  forall (months : list Z),
    length months = S m ->
    exists (rows : list row) (last : row),
      schedule_loop emi r months (emi * annuity (1 + r) (S m)) = rows ++ [last] /\
      Balance last = 0.
Proof.
  intros He Hr. induction m as [| m IH]; intros months Hlen.
  - destruct months as [| i [| j months]]; try discriminate.
    exists [], (mkRow i (Py.round emi 2)
                  (Py.round (emi - emi * annuity (1 + r) 1 * r) 2)
                  (Py.round (emi * annuity (1 + r) 1 * r) 2) 0).
    split; [| reflexivity]. cbn [schedule_loop app].
    replace (emi * annuity (1 + r) 1 - (emi - emi * annuity (1 + r) 1 * r))
      with 0 by (cbn [annuity]; field; lra).
    rewrite max_Rmax. unfold Rmax. destruct (Rle_dec 0 0); [| lra].
    now rewrite round_0.
  - destruct months as [| i months]; [discriminate |].
    injection Hlen as Hlen. destruct (IH months Hlen) as (rows & last & Hrows & Hlast).
    cbn [schedule_loop].
    replace (emi * annuity (1 + r) (S (S m)) -
             (emi - emi * annuity (1 + r) (S (S m)) * r))
      with (emi * annuity (1 + r) (S m))
      by (rewrite <- (annuity_step (1 + r) ltac:(lra) (S m)); ring).
    assert (Hnn : 0 <= emi * annuity (1 + r) (S m))
      by (apply Rmult_le_pos; [assumption | apply annuity_nonneg; lra]).
    rewrite max_Rmax, Rmax_left by assumption.
    rewrite Hrows.
    eexists (_ :: rows), last. split; [reflexivity | assumption].
Qed.



(** ** The rate solver *)

Lemma Rpower_gt_1 (x y : real) : 1 < x -> 0 < y -> 1 < Rpower x y.
Proof.
  intros Hx Hy. unfold Rpower.
  assert (H : 0 < y * ln x) by (apply Rmult_lt_0_compat; [assumption | now apply ln_pos]).
  pose proof (exp_ineq1 (y * ln x) ltac:(lra)). lra.
Qed.

(** On positive rates [func] is the payment minus [E], and it returns. *)
Lemma func_payment_curve (P N E r : real) :
  0 < N -> 0 < r ->
  func P N E r = Ok (payment_curve P N r - E) /\
  calculate_emi P r N = Ok (payment_curve P N r).
Proof.
  intros HN Hr.
  assert (Hpw : 1 < Rpower (1 + r / 12 / 100) N) by (apply Rpower_gt_1; lra).
  unfold func, calculate_emi, payment_curve.
  destruct (Req_dec_T (r / 12 / 100) 0) as [Hr0 | _]; [lra |].
  rewrite pow_pos_base by lra. cbn [bind].
  rewrite div_ok by lra. split; reflexivity.
Qed.

Lemma continuity_pt_payment_curve (P N r0 : real) :
  0 < N -> 0 < r0 -> continuity_pt (payment_curve P N) r0.
Proof.
  intros HN Hr0.
  set (u := fun r : real => r / 12 / 100).
  set (base := fun r : real => 1 + r / 12 / 100).
  set (pw := fun r : real => Rpower (1 + r / 12 / 100) N).
  assert (Hu : continuity_pt u r0).
  { apply derivable_continuous_pt. unfold u. reg. }
  assert (Hbase : continuity_pt base r0).
  { apply derivable_continuous_pt. unfold base. reg. }
  assert (Hpw : continuity_pt pw r0).
  { change pw with (comp (fun x : real => Rpower x N) base).
    apply continuity_pt_comp; [assumption |].
    apply derivable_continuous_pt.
    exists (N * Rpower (base r0) (N - 1)).
    apply derivable_pt_lim_power. unfold base. lra. }
  change (payment_curve P N)
    with ((fct_cte P * u * pw) / (pw - fct_cte 1))%F.
  apply continuity_pt_div.
  - apply continuity_pt_mult; [| assumption].
    apply continuity_pt_mult; [| assumption].
    apply continuity_pt_const. intros x y. reflexivity.
  - apply continuity_pt_minus; [assumption |].
    apply continuity_pt_const. intros x y. reflexivity.
  - unfold minus_fct, fct_cte, pw.
    pose proof (Rpower_gt_1 (1 + r0 / 12 / 100) N ltac:(lra) HN). lra.
Qed.

(** The intermediate value theorem, for a bracket given by the sign of a
    product as the root finder gives it. *)
Lemma root_in_bracket (g : real -> real) (a b y : real) :
  a <= b -> (forall t : real, a <= t <= b -> continuity_pt g t) ->
  (g a - y) * (g b - y) <= 0 ->
  exists t : real, a <= t <= b /\ g t = y.
Proof.
  intros Hab Hcont Hsign.
  destruct (Req_dec_T a b) as [-> | Hne].
  - exists b. split; [lra |]. nra.
  - assert (Hlt : a < b) by lra.
    destruct (Rle_dec (g a) y) as [Ha | Ha].
    + destruct (Rle_dec y (g b)) as [Hb | Hb].
      * destruct (f_interv_is_interv g a b y Hlt (conj Ha Hb) Hcont) as [t Ht].
        now exists t.
      * exists a. split; [lra |]. nra.
    + destruct (Rle_dec (g b) y) as [Hb | Hb].
      * destruct (f_interv_is_interv (- g)%F a b (- y) Hlt) as [t [Ht Hgt]].
        -- unfold opp_fct. lra.
        -- intros t Ht. apply continuity_pt_opp. now apply Hcont.
        -- exists t. split; [assumption |]. unfold opp_fct in Hgt. lra.
      * exfalso. nra.
Qed.

Lemma tolerance_small (x : real) :
  0.01 <= x <= 50 -> xtol + rtol * Rabs x <= 0.00005.
Proof.
  intros Hx. rewrite Rabs_pos_eq by lra. unfold xtol, rtol. lra.
Qed.

Section RateSolver.

Variable brentq : root_finder.
Hypothesis brentq_ok : brentq_contract brentq.


(** The interest-free payment itself is refused by [calculate_rate]: at
    [E = P / N] the payment curve is above [E] at both ends of the domain. *)
Example rate_of_interest_free_payment :
  calculate_rate brentq 1200 1 1200 =
  Raise (ValueError "Could not determine interest rate with given values.").
Proof.
  assert (Hf : forall r : real, 0 < r -> func 1200 1 1200 r = Ok (r - 0)).
  { intros r Hr. unfold func. rewrite pow_one_period by lra. cbn [bind].
    rewrite div_ok by lra. cbn [bind]. f_equal. field. lra. }
  assert (Hdef : defined_on (func 1200 1 1200) 0.01 50).
  { intros r Hr. eexists. apply Hf. lra. }
  destruct (brentq_ok (func 1200 1 1200) 0.01 50 _ _ ltac:(lra) Hdef
              (Hf 0.01 ltac:(lra)) (Hf 50 ltac:(lra))) as [Hsame _].
  unfold calculate_rate. rewrite div_ok by lra. cbn [bind].
  destruct (Rlt_dec 1200 (1200 / 1)); [lra |].
  rewrite Hsame by lra. reflexivity.
Qed.

End RateSolver.

(** ** Bisection meets the contract *)

Lemma bisect_bracket (f : real -> result real) (k : nat) :
  forall lo hi flo fhi : real,
    lo <= hi -> defined_on f lo hi -> f lo = Ok flo -> f hi = Ok fhi ->
    flo * fhi <= 0 ->
    exists x c y yc : real,
      bisect k f lo hi flo = Ok x /\ lo <= x <= hi /\ lo <= c <= hi /\
      f x = Ok y /\ f c = Ok yc /\ y * yc <= 0 /\
      Rabs (x - c) <= (hi - lo) / 2 ^ k.
Proof.
  induction k as [| k IH]; intros lo hi flo fhi Hle Hdef Hlo Hhi Hsign.
  - exists lo, hi, flo, fhi. cbn [bisect pow].
    repeat (split; [first [reflexivity | assumption | lra] |]).
    rewrite Rabs_left1 by lra. lra.
  - cbn [bisect].
    destruct (Hdef ((lo + hi) / 2) ltac:(lra)) as [fmid Hmid].
    rewrite Hmid. cbn [bind].
    assert (H2k : 0 < 2 ^ k) by (apply pow_lt; lra).
    destruct (Rle_dec (flo * fmid) 0) as [Hs | Hs].
    + destruct (IH lo ((lo + hi) / 2) flo fmid ltac:(lra)) as
        (x & c & y & yc & Hx & Hxin & Hcin & Hy & Hyc & Hprod & Hdist);
        try assumption.
      { intros t Ht. apply Hdef. lra. }
      exists x, c, y, yc.
      repeat (split; [first [assumption | lra] |]).
      replace ((hi - lo) / 2 ^ S k) with (((lo + hi) / 2 - lo) / 2 ^ k)
        by (cbn [pow]; field; lra).
      assumption.
    + destruct (IH ((lo + hi) / 2) hi fmid fhi ltac:(lra)) as
        (x & c & y & yc & Hx & Hxin & Hcin & Hy & Hyc & Hprod & Hdist);
        try assumption.
      { intros t Ht. apply Hdef. lra. }
      { destruct (Rle_dec 0 flo), (Rle_dec 0 fmid), (Rle_dec 0 fhi); nra. }
      exists x, c, y, yc.
      repeat (split; [first [assumption | lra] |]).
      replace ((hi - lo) / 2 ^ S k) with ((hi - (lo + hi) / 2) / 2 ^ k)
        by (cbn [pow]; field; lra).
      assumption.
Qed.

Lemma bisection_steps (a b : real) :
  a < b -> (b - a) / 2 ^ Z.to_nat (up ((b - a) / xtol)) <= xtol.
Proof.
  intros Hab. assert (Hx : 0 < xtol) by (unfold xtol; lra).
  set (t := (b - a) / xtol).
  assert (Ht : 0 < t) by (apply Rdiv_lt_0_compat; lra).
  destruct (archimed t) as [Hup _].
  assert (Hk : IZR (up t) = INR (Z.to_nat (up t))).
  { rewrite INR_IZR_INZ, Z2Nat.id; [reflexivity |].
    apply le_IZR. lra. }
  set (k := Z.to_nat (up t)) in *.
  pose proof (poly k 1 ltac:(lra)) as Hpoly.
  replace (1 + 1) with 2 in Hpoly by lra.
  assert (H2k : t < 2 ^ k) by lra.
  apply Rmult_le_reg_r with (2 ^ k); [lra |].
  replace ((b - a) / 2 ^ k * 2 ^ k) with (b - a) by (field; lra).
  replace (b - a) with (t * xtol) by (unfold t; field; lra).
  rewrite Rmult_comm. apply Rmult_le_compat_l; lra.
Qed.

Lemma bisection_contract : brentq_contract bisection.
Proof.
  intros f a b ya yb Hab Hdef Ha Hb. unfold bisection.
  rewrite Ha, Hb. cbn [bind]. split.
  - intros Hsign. destruct (Rlt_dec 0 (ya * yb)); [reflexivity | contradiction].
  - intros Hsign. destruct (Rlt_dec 0 (ya * yb)); [lra |].
    destruct (bisect_bracket f (Z.to_nat (up ((b - a) / xtol))) a b ya yb
                ltac:(lra) Hdef Ha Hb Hsign)
      as (x & c & y & yc & Hx & Hxin & Hcin & Hy & Hyc & Hprod & Hdist).
    exists x, c, y, yc.
    repeat (split; [first [assumption | lra] |]).
    pose proof (bisection_steps a b Hab).
    assert (0 <= rtol * Rabs x).
    { apply Rmult_le_pos; [unfold rtol; lra | apply Rabs_pos]. }
    lra.
Qed.


(** ** The functions on concrete inputs *)

Lemma round_half_even_whole (k : Z) : Py.round_half_even (IZR k) = k.
Proof.
  unfold Py.round_half_even. rewrite Int_part_IZR.
  destruct (Rlt_dec (IZR k - IZR k) (1 / 2)); [reflexivity | lra].
Qed.

(** A whole number of cents is left as it is. *)
Lemma round_cents (x : real) (k : Z) : x * 100 = IZR k -> Py.round x 2 = x.
Proof.
  intros Hx. unfold Py.round.
  replace (x * 10 ^ 2) with (IZR k) by lra.
  rewrite round_half_even_whole. lra.
Qed.

Example emi_one_period : calculate_emi 1200 12 1 = Ok 1212.
Proof.
  unfold calculate_emi.
  destruct (Req_dec_T (12 / 12 / 100) 0) as [H | _]; [lra |].
  rewrite pow_one_period by lra. cbn [bind].
  rewrite div_ok by lra. f_equal. lra.
Qed.

Example principal_one_period : calculate_principal 1212 12 1 = Ok 1200.
Proof.
  unfold calculate_principal.
  destruct (Req_dec_T (12 / 12 / 100) 0) as [H | _]; [lra |].
  rewrite pow_one_period by lra. cbn [bind].
  rewrite div_ok by lra. f_equal. lra.
Qed.

Example tenure_zero_rate : calculate_tenure 1200 0 100 = Ok 12.
Proof.
  unfold calculate_tenure.
  destruct (Req_dec_T (0 / 12 / 100) 0) as [_ | H]; [| lra].
  rewrite div_ok by lra. f_equal. lra.
Qed.

(** One turn of the loop, with the values of its local variables named. *)
Lemma schedule_loop_step (emi r : real) (i : Z) (months : list Z)
    (balance interest principal_component balance' : real) :
  interest = balance * r ->
  principal_component = emi - interest ->
  balance' = Rmax (balance - principal_component) 0 ->
  schedule_loop emi r (i :: months) balance =
  mkRow i (Py.round emi 2) (Py.round principal_component 2)
        (Py.round interest 2) (Py.round balance' 2)
  :: schedule_loop emi r months balance'.
Proof.
  intros -> -> ->. cbn [schedule_loop]. now rewrite max_Rmax.
Qed.

(** An interest-free loan over two months, and a one-month loan at 12%. *)
Example schedule_two_periods :
  generate_schedule 1200 0 2.5 =
  Ok [mkRow 1 600 600 0 600; mkRow 2 600 600 0 0].
Proof.
  unfold generate_schedule.
  assert (Hint : Py.int 2.5 = 2%Z).
  { unfold Py.int. destruct (Rle_dec 0 2.5); [| lra].
    symmetry. apply Int_part_spec. lra. }
  rewrite Hint, calculate_emi_rate_0, div_ok by lra. cbn [bind].
  change (Py.range 1 (2 + 1)) with [1%Z; 2%Z].
  replace (1200 / 2) with 600 by lra. replace (0 / 12 / 100) with 0 by lra.
  rewrite (schedule_loop_step 600 0 1 [2%Z] 1200 0 600 600);
    [| lra | lra | rewrite Rmax_left; lra].
  rewrite (schedule_loop_step 600 0 2 [] 600 0 600 0);
    [| lra | lra | rewrite Rmax_right; lra].
  rewrite round_0, (round_cents 600 60000) by lra.
  reflexivity.
Qed.

Example schedule_one_period :
  generate_schedule 1000 12 1 = Ok [mkRow 1 1010 1000 10 0].
Proof.
  unfold generate_schedule.
  rewrite (int_whole 1) by lia.
  assert (Hemi : calculate_emi 1000 12 1 = Ok 1010).
  { unfold calculate_emi.
    destruct (Req_dec_T (12 / 12 / 100) 0) as [H | _]; [lra |].
    rewrite pow_one_period by lra. cbn [bind].
    rewrite div_ok by lra. f_equal. lra. }
  rewrite Hemi. cbn [bind].
  change (Py.range 1 (1 + 1)) with [1%Z].
  rewrite (schedule_loop_step 1010 (12 / 12 / 100) 1 [] 1000 10 1000 0);
    [| lra | lra | rewrite Rmax_right; lra].
  rewrite round_0, (round_cents 1010 101000), (round_cents 1000 100000),
    (round_cents 10 1000) by lra.
  reflexivity.
Qed.

(** * Further properties of the solvers *)

(** ** Payment, principal and tenure undo one another *)

(** The payment at a non-negative rate over [n >= 1] whole periods, written
    with the annuity sum; positive for a positive principal. *)
Lemma payment_annuity_pos (P R : real) (n : nat) :
  0 < P -> 0 <= R -> (1 <= n)%nat -> 0 < P / annuity (1 + R / 12 / 100) n.
Proof.
  intros HP HR Hn. apply Rdiv_lt_0_compat; [assumption |].
  apply annuity_pos; [lra | assumption].
Qed.

Lemma payment_strictly_increasing (P Ra Rb : real) (n : nat) :
  0 < P -> (1 <= n)%nat -> 0 <= Ra -> Ra < Rb ->
  P / annuity (1 + Ra / 12 / 100) n < P / annuity (1 + Rb / 12 / 100) n.
Proof.
  intros HP Hn HRa HRab.
  assert (Ha : 0 < annuity (1 + Ra / 12 / 100) n) by (apply annuity_pos; [lra | assumption]).
  assert (Hb : 0 < annuity (1 + Rb / 12 / 100) n) by (apply annuity_pos; [lra | assumption]).
  assert (Hab : annuity (1 + Rb / 12 / 100) n < annuity (1 + Ra / 12 / 100) n)
    by (apply annuity_decreasing; [lra | lra | assumption]).
  apply Rmult_lt_compat_l; [assumption |].
  apply Rinv_lt_contravar; [apply Rmult_lt_0_compat |]; assumption.
Qed.

(** With a positive periodic rate [r], what is left of one unit after the
    interest on the annuity sum is the discount factor of [n] periods. *)
Lemma annuity_interest (r : real) (n : nat) :
  0 < r -> 1 - r * annuity (1 + r) n = / (1 + r) ^ n.
Proof.
  intros Hr. assert (Hqn : (1 + r) ^ n <> 0) by (apply pow_nonzero; lra).
  rewrite annuity_closed_form by lra. field. split; lra.
Qed.

(** The tenure that [calculate_tenure] finds for the payment written with
    the annuity sum. *)
Lemma calculate_tenure_annuity (P R : real) (k : nat) :
  0 < P -> 0 <= R -> (1 <= k)%nat ->
  calculate_tenure P R (P / annuity (1 + R / 12 / 100) k) = Ok (INR k).
Proof.
  intros HP HR Hk.
  pose proof (annuity_pos (1 + R / 12 / 100) ltac:(lra) k Hk) as HA.
  destruct (Req_dec_T R 0) as [-> | HR0].
  - unfold calculate_tenure.
    destruct (Req_dec_T (0 / 12 / 100) 0) as [_ | H]; [| lra].
    replace (1 + 0 / 12 / 100) with 1 in * by lra.
    rewrite annuity_one in *. rewrite div_ok.
    + f_equal. field. split; lra.
    + apply Rgt_not_eq. apply Rdiv_lt_0_compat; lra.
  - set (r := R / 12 / 100) in *. assert (Hr : 0 < r) by (unfold r; lra).
    pose proof (annuity_interest r k Hr) as Hleft.
    set (A := annuity (1 + r) k) in *.
    assert (Hqk : 0 < (1 + r) ^ k) by (apply pow_lt; lra).
    assert (Hd : P / A - P * r = P / A * / (1 + r) ^ k).
    { rewrite <- Hleft. field. lra. }
    assert (Hq : P / A / (P / A - P * r) = (1 + r) ^ k).
    { rewrite Hd. field. repeat split; lra. }
    assert (HE : 0 < P / A) by (apply Rdiv_lt_0_compat; lra).
    rewrite calculate_tenure_formula.
    + f_equal. fold r. rewrite Hq, ln_pow by lra.
      field. apply Rgt_not_eq, ln_pos. lra.
    + exact Hr.
    + fold r. rewrite Hd. apply Rgt_not_eq.
      apply Rmult_lt_0_compat; [assumption | now apply Rinv_0_lt_compat].
    + fold r. rewrite Hq. assumption.
Qed.





(** ** How the payment and the tenure move *)

Lemma annuity_grows (q : real) (n : nat) :
  0 < q -> annuity q n < annuity q (S n).
Proof.
  intros Hq. induction n as [| n IH].
  - cbn [annuity]. apply Rdiv_lt_0_compat; lra.
  - change (annuity q (S (S n))) with ((1 + annuity q (S n)) / q).
    change (annuity q (S n)) with ((1 + annuity q n) / q) at 1.
    apply Rmult_lt_compat_r; [now apply Rinv_0_lt_compat | lra].
Qed.

Lemma annuity_grows_lt (q : real) (n m : nat) :
  0 < q -> (n < m)%nat -> annuity q n < annuity q m.
Proof.
  intros Hq Hnm. induction Hnm as [| m _ IH].
  - now apply annuity_grows.
  - eapply Rlt_trans; [exact IH | now apply annuity_grows].
Qed.







(** ** Degenerate numbers of periods *)

Lemma calculate_emi_zero_periods (P R : real) :
  calculate_emi P R 0 = Raise ZeroDivisionError.
Proof.
  unfold calculate_emi. destruct (Req_dec_T (R / 12 / 100) 0); [apply div_zero |].
  unfold Py.pow. destruct (Req_dec_T 0 0) as [_ | H]; [| contradiction].
  cbn [bind]. replace (1 - 1) with 0 by lra. apply div_zero.
Qed.

(** X7.  With no period at all the solvers part ways: [calculate_emi] raises
    [ZeroDivisionError] in both of its branches, [calculate_rate] raises it
    at [P / N] before its own checks and outside its [try], and
    [calculate_principal] returns a principal of zero. *)
Theorem solvers_without_period (brentq : root_finder) (P R E : real) :
  calculate_emi P R 0 = Raise ZeroDivisionError /\
  calculate_rate brentq P 0 E = Raise ZeroDivisionError /\
  exists P0 : real, calculate_principal E R 0 = Ok P0 /\ P0 = 0.
Proof.
  split; [apply calculate_emi_zero_periods |]. split.
  - unfold calculate_rate. now rewrite div_zero.
  - unfold calculate_principal.
    destruct (Req_dec_T (R / 12 / 100) 0) as [Hr | Hr].
    + eexists. split; [reflexivity | ring].
    + unfold Py.pow. destruct (Req_dec_T 0 0) as [_ | H]; [| contradiction].
      cbn [bind]. rewrite div_ok by lra.
      eexists. split; [reflexivity |].
      replace (1 - 1) with 0 by lra. unfold Rdiv. ring.
Qed.



(** * Further properties of the schedule *)

Lemma int_IZR (n : Z) : Py.int (IZR n) = n.
Proof.
  unfold Py.int. destruct (Rle_dec 0 (IZR n)); [apply Int_part_IZR |].
  rewrite <- opp_IZR, Int_part_IZR. lia.
Qed.

Lemma int_fraction (N : real) : -1 < N < 1 -> Py.int N = 0%Z.
Proof.
  intros HN. unfold Py.int. destruct (Rle_dec 0 N).
  - symmetry. apply Int_part_spec. lra.
  - replace (Int_part (- N)) with 0%Z; [reflexivity |].
    apply Int_part_spec. lra.
Qed.

Lemma int_negative (N : real) : N <= -1 -> (Py.int N <= -1)%Z.
Proof.
  intros HN. unfold Py.int. destruct (Rle_dec 0 N); [lra |].
  pose proof (Int_part_mono 1 (- N) ltac:(lra)) as H.
  rewrite (Int_part_IZR 1) in H. lia.
Qed.

(** X9.  A number of periods that truncates to zero makes [generate_schedule]
    raise [ZeroDivisionError]: it does not return an empty schedule. *)
Theorem generate_schedule_no_period (P R N : real) :
  -1 < N < 1 -> generate_schedule P R N = Raise ZeroDivisionError.
Proof.
  intros HN. unfold generate_schedule.
  rewrite (int_fraction N HN), calculate_emi_zero_periods. reflexivity.
Qed.

Lemma generate_schedule_no_period_witness :
  generate_schedule 1000 12 0.5 = Raise ZeroDivisionError.
Proof.
  apply generate_schedule_no_period. lra.
Defined.

Lemma calculate_emi_negative_periods (P R N : real) :
  0 <= R -> N < 0 -> exists emi : real, calculate_emi P R N = Ok emi.
Proof.
  intros HR HN. unfold calculate_emi.
  destruct (Req_dec_T (R / 12 / 100) 0) as [Hr | Hr].
  - rewrite div_ok by lra. eexists; reflexivity.
  - rewrite pow_pos_base by lra. cbn [bind].
    pose proof (Rpower_lt (1 + R / 12 / 100) N 0 ltac:(lra) HN) as Hlt.
    rewrite Rpower_O in Hlt by lra.
    rewrite div_ok by lra. eexists; reflexivity.
Qed.

Lemma range_empty (n : Z) : (n <= 0)%Z -> Py.range 1 (n + 1) = [].
Proof.
  intros Hn. unfold Py.range.
  replace (Z.to_nat (n + 1 - 1)) with 0%nat by lia. reflexivity.
Qed.



Lemma schedule_loop_payment (emi r : real) (months : list Z) (balance : real) :
  Forall (fun row => EMI row = Py.round emi 2) (schedule_loop emi r months balance).
Proof.
  revert balance. induction months as [| i months IH]; intros balance; cbn.
  - constructor.
  - constructor; [reflexivity | apply IH].
Qed.

(** X11.  Whatever the arguments, a schedule that is returned has [int(N)] rows
    (none when that is negative), numbered from 1, and every row carries
    the payment of [calculate_emi] rounded to cents. *)
Theorem generate_schedule_shape (P R N : real) (rows : list row) :
  generate_schedule P R N = Ok rows ->
  exists emi : real,
    calculate_emi P R (IZR (Py.int N)) = Ok emi /\
    length rows = Z.to_nat (Py.int N) /\
    map Month rows = map Z.of_nat (seq 1 (Z.to_nat (Py.int N))) /\
    Forall (fun row => EMI row = Py.round emi 2) rows.
Proof.
  unfold generate_schedule.
  destruct (calculate_emi P R (IZR (Py.int N))) as [emi | e]; cbn [bind];
    [| discriminate].
  intros [= <-]. exists emi. split; [reflexivity |].
  split; [now rewrite schedule_loop_length, range_length |].
  split; [now rewrite schedule_loop_months, range_from_1 |].
  apply schedule_loop_payment.
Qed.

Lemma generate_schedule_shape_witness :
  exists emi : real,
    calculate_emi 1200 0 (IZR (Py.int 2.5)) = Ok emi /\
    length [mkRow 1 600 600 0 600; mkRow 2 600 600 0 0] = Z.to_nat (Py.int 2.5) /\
    map Month [mkRow 1 600 600 0 600; mkRow 2 600 600 0 0] =
    map Z.of_nat (seq 1 (Z.to_nat (Py.int 2.5))) /\
    Forall (fun row => EMI row = Py.round emi 2)
           [mkRow 1 600 600 0 600; mkRow 2 600 600 0 0].
Proof.
  apply (generate_schedule_shape 1200 0 2.5). exact schedule_two_periods.
Defined.

(** The interest of a turn is that of the balance before it, so it falls
    with the balance, and the principal component rises. *)
Lemma schedule_loop_components (emi r : real) (months : list Z) (balance : real) :
  0 <= r -> 0 <= balance -> balance * r <= emi ->
  let rows := schedule_loop emi r months balance in
  Forall (fun x => 0 <= x <= Py.round (balance * r) 2) (map Interest rows) /\
  StronglySorted Rge (map Interest rows) /\
  Forall (fun x => Py.round (emi - balance * r) 2 <= x) (map Principal rows) /\
  StronglySorted Rle (map Principal rows).
Proof.
  intros Hr. revert balance.
  induction months as [| i months IH]; intros balance Hb Hi; cbn.
  - repeat split; constructor.
  - destruct (balance_step emi r balance Hr Hb Hi) as [[Hb0 Hb1] Hi'].
    set (balance' := Py.max (balance - (emi - balance * r)) 0) in *.
    destruct (IH balance' Hb0 Hi') as (HI & HIs & HP & HPs).
    assert (Hint : balance' * r <= balance * r) by (apply Rmult_le_compat_r; lra).
    pose proof (round_mono _ _ 2 Hint) as HrI.
    assert (Hpc : emi - balance * r <= emi - balance' * r) by lra.
    pose proof (round_mono _ _ 2 Hpc) as HrP.
    assert (H0 : 0 <= Py.round (balance * r) 2)
      by (apply round_nonneg, Rmult_le_pos; assumption).
    repeat split.
    + constructor; [lra |].
      eapply Forall_impl; [| exact HI]. cbn. intros x Hx. lra.
    + constructor; [assumption |].
      eapply Forall_impl; [| exact HI]. cbn. intros x Hx. lra.
    + constructor; [lra |].
      eapply Forall_impl; [| exact HP]. cbn. intros x Hx. lra.
    + constructor; [assumption |].
      eapply Forall_impl; [| exact HP]. cbn. intros x Hx. lra.
Qed.



Lemma schedule_loop_outstanding (emi r : real) (months : list Z) :
  0 <= emi -> 0 <= r ->
  forall (k : nat) (row : row),
    nth_error (schedule_loop emi r months (emi * annuity (1 + r) (length months))) k
    = Some row ->
    Balance row = Py.round (emi * annuity (1 + r) (length months - S k)) 2.
Proof.
  intros He Hr. induction months as [| i months IH]; intros k row Hk.
  - destruct k; discriminate.
  - cbn [length] in *. cbn [schedule_loop] in Hk.
    replace (emi * annuity (1 + r) (S (length months)) -
             (emi - emi * annuity (1 + r) (S (length months)) * r))
      with (emi * annuity (1 + r) (length months)) in Hk
      by (rewrite <- (annuity_step (1 + r) ltac:(lra) (length months)); ring).
    assert (Hnn : 0 <= emi * annuity (1 + r) (length months))
      by (apply Rmult_le_pos; [assumption | apply annuity_nonneg; lra]).
    rewrite max_Rmax, Rmax_left in Hk by assumption.
    destruct k as [| k].
    + cbn in Hk. injection Hk as <-. cbn [Balance].
      replace (S (length months) - 1)%nat with (length months) by lia.
      reflexivity.
    + cbn [nth_error] in Hk. rewrite (IH k row Hk). reflexivity.
Qed.



(** * The rate solver undoes the payment *)

(** Over whole periods the payment curve is the principal over the annuity
    sum. *)
Lemma payment_curve_annuity (P r : real) (k : nat) :
  0 < r -> (1 <= k)%nat ->
  payment_curve P (INR k) r = P / annuity (1 + r / 12 / 100) k.
Proof.
  intros Hr Hk.
  assert (HN : 0 < INR k) by (apply lt_0_INR; lia).
  destruct (func_payment_curve P (INR k) 0 r HN Hr) as [_ He].
  rewrite calculate_emi_annuity in He by (lra || assumption).
  now injection He.
Qed.

Section RateRoundTrip.

Variable brentq : root_finder.
Hypothesis brentq_ok : brentq_contract brentq.


End RateRoundTrip.


(** * The page *)

(** ** Exactly one blank field *)

Lemma calculate_fields_blank_message (brentq : root_finder) (P R N E : option real) :
  calculate_fields brentq P R N E = [st_error_blank] <->
  count_None [P; R; N; E] <> 1%nat.
Proof.
  unfold calculate_fields.
  destruct P as [P |], R as [R |], N as [N |], E as [E |]; cbn;
    try (split; [intros _; lia | reflexivity]);
    (split; [| intros H; now contradiction H]);
    match goal with
    | |- context [bind ?m _] => destruct m; cbn [bind]
    end;
    try discriminate;
    match goal with
    | |- context [generate_schedule ?a ?b ?c] => destruct (generate_schedule a b c)
    end; discriminate.
Qed.

Lemma text_field_converts (float : string -> result real) (text : string) :
  (text <> ""%string -> exists x : real, float text = Ok x) ->
  exists o : option real,
    text_field float text = Ok o /\ is_None o = String.eqb text "".
Proof.
  intros Hconv. unfold text_field.
  destruct (String.eqb_spec text "") as [-> | Hne].
  - exists None. split; reflexivity.
  - destruct (Hconv Hne) as [x ->]. exists (Some x). split; reflexivity.
Qed.

(** X14.  When every text that is not empty converts to a number, the page shows
    the message about blank fields, and nothing else, exactly when the
    number of empty texts is not one. *)
Theorem one_blank_field (float : string -> result real) (brentq : root_finder)
    (principal interest_rate tenure emi : string) :
  (forall text : string,
     In text [principal; interest_rate; tenure; emi] ->
     text <> ""%string -> exists x : real, float text = Ok x) ->
  calculate_button float brentq principal interest_rate tenure emi
  = [st_error_blank] <->
  length (filter (fun text => String.eqb text "")
            [principal; interest_rate; tenure; emi]) <> 1%nat.
Proof.
  intros Hconv.
  destruct (text_field_converts float principal) as (P & HP & HPn);
    [apply Hconv; cbn; tauto |].
  destruct (text_field_converts float interest_rate) as (R & HR & HRn);
    [apply Hconv; cbn; tauto |].
  destruct (text_field_converts float tenure) as (N & HN & HNn);
    [apply Hconv; cbn; tauto |].
  destruct (text_field_converts float emi) as (E & HE & HEn);
    [apply Hconv; cbn; tauto |].
  unfold calculate_button. rewrite HP, HR, HN, HE. cbn [bind].
  rewrite calculate_fields_blank_message.
  unfold count_None. cbn [filter]. rewrite HPn, HRn, HNn, HEn.
  destruct (String.eqb principal ""), (String.eqb interest_rate ""),
    (String.eqb tenure ""), (String.eqb emi ""); reflexivity.
Qed.

Lemma one_blank_field_witness :
  calculate_button (fun _ => Ok 1) bisection "1200" "" "" "100"
  = [st_error_blank] <->
  length (filter (fun text => String.eqb text "") ["1200"; ""; ""; "100"]%string)
  <> 1%nat.
Proof.
  apply one_blank_field. intros text _ _. exists 1. reflexivity.
Defined.

(** ** What the page shows for each blank field *)

Lemma calculate_emi_positive_rate (P R N : real) :
  0 < R -> 0 < N -> calculate_emi P R N = Ok (payment_curve P N R).
Proof.
  intros HR HN. now destruct (func_payment_curve P N 0 R HN HR).
Qed.

(** At a positive rate the payment curve falls as the number of periods,
    whole or not, grows. *)
Lemma payment_curve_decreasing_in_periods (P R N1 N2 : real) :
  0 < P -> 0 < R -> 0 < N1 -> N1 < N2 ->
  payment_curve P N2 R < payment_curve P N1 R.
Proof.
  intros HP HR HN1 HN. unfold payment_curve.
  set (r := R / 12 / 100). assert (Hr : 0 < r) by (unfold r; lra).
  pose proof (Rpower_gt_1 (1 + r) N1 ltac:(lra) HN1) as H1.
  pose proof (Rpower_lt (1 + r) N1 N2 ltac:(lra) HN) as H12.
  set (x1 := Rpower (1 + r) N1) in *. set (x2 := Rpower (1 + r) N2) in *.
  assert (Hc : 0 < P * r) by (apply Rmult_lt_0_compat; assumption).
  apply Rmult_lt_reg_r with ((x1 - 1) * (x2 - 1));
    [apply Rmult_lt_0_compat; lra |].
  replace (P * r * x2 / (x2 - 1) * ((x1 - 1) * (x2 - 1)))
    with (P * r * (x2 * (x1 - 1))) by (field; lra).
  replace (P * r * x1 / (x1 - 1) * ((x1 - 1) * (x2 - 1)))
    with (P * r * (x1 * (x2 - 1))) by (field; lra).
  apply Rmult_lt_compat_l; [assumption | lra].
Qed.





Lemma round_half_even_small (t : real) :
  -1 / 2 <= t <= 1 / 2 -> Py.round_half_even t = 0%Z.
Proof.
  intros Ht. unfold Py.round_half_even.
  pose proof (Int_part_bounds t) as Hb.
  assert (Hk : Int_part t = 0%Z \/ Int_part t = (-1)%Z).
  { assert (H1 : IZR (Int_part t) < IZR 1) by lra.
    assert (H2 : IZR (-2) < IZR (Int_part t)) by lra.
    apply lt_IZR in H1, H2. lia. }
  destruct Hk as [Hk | Hk]; rewrite Hk in *; cbn [Z.even];
    destruct (Rlt_dec (t - 0) (1 / 2)), (Rlt_dec (1 / 2) (t - 0)),
             (Rlt_dec (t - -1) (1 / 2)), (Rlt_dec (1 / 2) (t - -1));
    try reflexivity; try lra.
Qed.

(** X17.  With the tenure blank, a tenure that rounds to zero is announced as a
    success, and then the schedule fails: the page shows the success
    message followed by the error of a division by zero. *)
Theorem tenure_rounding_to_zero (brentq : root_finder) (P R E t : real) :
  calculate_tenure P R E = Ok t -> -1 / 2 <= t <= 1 / 2 ->
  calculate_fields brentq (Some P) (Some R) None (Some E)
  = [st_success the_Tenure 0; st_error ZeroDivisionError].
Proof.
  intros Ht Hsmall.
  unfold calculate_fields, solve_blank. cbn [count_None filter is_None length Nat.eqb negb].
  rewrite Ht. cbn [bind]. rewrite round_half_even_small by assumption.
  unfold generate_schedule. rewrite int_IZR, calculate_emi_zero_periods.
  reflexivity.
Qed.

Lemma tenure_rounding_to_zero_witness :
  calculate_fields bisection (Some 100) (Some 0) None (Some 1000)
  = [st_success the_Tenure 0; st_error ZeroDivisionError].
Proof.
  apply (tenure_rounding_to_zero bisection 100 0 1000 (100 / 1000)); [| lra].
  unfold calculate_tenure.
  destruct (Req_dec_T (0 / 12 / 100) 0) as [_ | H]; [| lra].
  apply div_ok. lra.
Defined.

Lemma round_half_even_negative (t : real) :
  t < -1 / 2 -> (Py.round_half_even t <= -1)%Z.
Proof.
  intros Ht. unfold Py.round_half_even.
  pose proof (Int_part_bounds t) as Hb.
  assert (Hk : (Int_part t <= -1)%Z).
  { assert (H1 : IZR (Int_part t) < IZR 0) by lra. apply lt_IZR in H1. lia. }
  destruct (Rlt_dec (t - IZR (Int_part t)) (1 / 2)); [assumption |].
  assert (Hk2 : (Int_part t <= -2)%Z).
  { assert (H1 : IZR (Int_part t) < IZR (-1)) by lra. apply lt_IZR in H1. lia. }
  destruct (Rlt_dec (1 / 2) (t - IZR (Int_part t))); [lia |].
  destruct (Z.even (Int_part t)); lia.
Qed.

(** X18.  With the tenure blank, a negative tenure (one below -1/2) is announced
    as a success and followed by a table without rows. *)
Theorem negative_tenure_empty_table (brentq : root_finder) (P R E t : real) :
  0 <= R -> calculate_tenure P R E = Ok t -> t < -1 / 2 ->
  exists n : Z,
    (n <= -1)%Z /\
    calculate_fields brentq (Some P) (Some R) None (Some E)
    = [st_success the_Tenure (IZR n); st_dataframe []].
Proof.
  intros HR Ht Hneg. exists (Py.round_half_even t).
  pose proof (round_half_even_negative t Hneg) as Hn.
  split; [assumption |].
  unfold calculate_fields, solve_blank. cbn [count_None filter is_None length Nat.eqb negb].
  rewrite Ht. cbn [bind]. unfold generate_schedule. rewrite int_IZR.
  assert (Hn' : IZR (Py.round_half_even t) < 0) by (apply (IZR_lt _ 0); lia).
  destruct (calculate_emi_negative_periods P R _ HR Hn') as [emi ->].
  cbn [bind]. rewrite range_empty by lia. reflexivity.
Qed.

Lemma negative_tenure_empty_table_witness :
  exists n : Z,
    (n <= -1)%Z /\
    calculate_fields bisection (Some 1000) (Some 0) None (Some (-100))
    = [st_success the_Tenure (IZR n); st_dataframe []].
Proof.
  apply (negative_tenure_empty_table bisection 1000 0 (-100) (1000 / -100));
    [lra | | lra].
  unfold calculate_tenure.
  destruct (Req_dec_T (0 / 12 / 100) 0) as [_ | H]; [| lra].
  apply div_ok. lra.
Defined.


